(** * Schnorr signatures and compressed public keys (src/lib/signature.ts)

    A shallow embedding of [PrivateKey], [PublicKey] and [Signature] of
    [src/lib/signature.ts].  The classes [Field], [Bool], [Scalar], [Group]
    and [Poseidon] are imported by the source from [snarky.js]; they appear
    here as interfaces (type classes) whose laws are the ones of a prime
    field, of its scalar field and of a curve group of prime order.  A
    method that raises returns [Throw]: [Field.sqrt] when there is no root,
    [Group.scale] when the product is the neutral element.  The base58 and
    JSON methods only forward to the codec of [Ledger] and are left out. *)

From Stdlib Require Import ZArith List Bool Ring.
Import ListNotations.

(** ** Exceptions *)

(** The exceptions that reach the caller of this file: a compressed key
    without a square root, and a product of [Group.scale] that has no affine
    coordinates ("to_affine_exn: Got identity"). *)
Inductive error : Type :=
| InvalidPoint
| GotIdentity.

Inductive result (A : Type) : Type :=
| Ok (a : A)
| Throw (e : error).

Arguments Ok {A} a.
Arguments Throw {A} e.

Definition rbind {A B : Type} (m : result A) (k : A -> result B) : result B :=
  match m with
  | Ok a => k a
  | Throw e => Throw e
  end.

Declare Scope result_scope.
Delimit Scope result_scope with result.
Notation "'let*' x ':=' m 'in' k" := (rbind m (fun x => k))
  (at level 10, x name, m at level 100, k at level 200) : result_scope.

(** ** The interface of [snarky.js] *)

(** [Field]: numbers are turned into field elements by [Field(n)]. *)
Class FieldOps (F : Type) : Type := {
  Field : Z -> F;
  fadd : F -> F -> F;
  fmul : F -> F -> F;
  fneg : F -> F;
  fsqrt : F -> option F;
  fequals : F -> F -> bool;
  fisZero : F -> bool;
  ftoBits : F -> list bool
}.

(** [Scalar], with the random source behind [Scalar.random()] made an
    explicit state. *)
Class ScalarOps (S : Type) : Type := {
  szero : S;
  sone : S;
  sadd : S -> S -> S;
  smul : S -> S -> S;
  sneg : S -> S;
  sfromBits : list bool -> S;
  Rng : Type;
  srandom : Rng -> S * Rng
}.

(** [Group]: an object with the two fields [x] and [y].  [GroupOps] is the
    arithmetic of the curve on such objects; the neutral element, which has
    no affine coordinates, is the pair (0, 0) there.  [add] and [neg] of the
    class are [gadd] and [gneg]; [scale] is [Group_scale] below. *)
Module Group.
Record t (F : Type) : Type := mk { x : F; y : F }.
Arguments mk {F} x y.
Arguments x {F} t.
Arguments y {F} t.
End Group.

Class GroupOps (F S : Type) : Type := {
  generator : Group.t F;
  gadd : Group.t F -> Group.t F -> Group.t F;
  gneg : Group.t F -> Group.t F;
  gscale : Group.t F -> S -> Group.t F
}.

(** [Poseidon.hash]. *)
Class HashOps (F : Type) : Type := {
  Poseidon_hash : list F -> F
}.

(** ** The three classes of the source, as records *)

Module PrivateKey.
Record t (S : Type) : Type := mk { s : S }.
Arguments mk {S} s.
Arguments s {S} t.
End PrivateKey.

Module PublicKey.
Record t (F : Type) : Type := mk { x : F; isOdd : bool }.
Arguments mk {F} x isOdd.
Arguments x {F} t.
Arguments isOdd {F} t.
End PublicKey.

Module Signature.
Record t (F S : Type) : Type := mk { r : F; s : S }.
Arguments mk {F S} r s.
Arguments r {F S} t.
Arguments s {F S} t.
End Signature.

Section Code.

Context {F S : Type}.
Context {FO : FieldOps F} {SO : ScalarOps S}.
Context {GO : GroupOps F S} {HO : HashOps F}.

Definition fsub (a b : F) : F := fadd a (fneg b).

Definition ssub (a b : S) : S := sadd a (sneg b).

(** [Bool.toField()] *)
Definition toField (b : bool) : F := if b then Field 1 else Field 0.

(** [f.toBits()[0]]: the least significant bit of a field element. *)
Definition lowbit (f : F) : bool := nth 0 (ftoBits f) false.

(** Modelled from the spec: [Field.sqrt] lives in [snarky.js], which is
    not part of the sources; the specification makes a missing square root
    the error condition "point not on curve" ([InvalidPoint]) of
    decompression, so the call raises when [fsqrt] finds no root. *)
Definition Field_sqrt (a : F) : result F :=
  match fsqrt a with
  | Some root => Ok root
  | None => Throw InvalidPoint
  end.

(** [Group.scale] hands its product back in affine coordinates, which
    raises when the product is the neutral element. *)
Definition to_affine_exn (q : Group.t F) : result (Group.t F) :=
  if fisZero (Group.x q) && fisZero (Group.y q)
  then Throw GotIdentity
  else Ok q.

Definition Group_scale (p : Group.t F) (k : S) : result (Group.t F) :=
  to_affine_exn (gscale p k).

(** *** PrivateKey *)

Definition random (st : Rng) : PrivateKey.t S * Rng :=
  let (sc, st') := srandom st in (PrivateKey.mk sc, st').

Definition fromBits (bs : list bool) : PrivateKey.t S :=
  PrivateKey.mk (sfromBits bs).

(** *** PublicKey *)

Definition toGroup (this : PublicKey.t F) : result (Group.t F) :=
  let x := PublicKey.x this in
  let isOdd := PublicKey.isOdd this in
  let ySquared := fadd (fmul (fmul x x) x) (Field 5) in
  (let* someY := Field_sqrt ySquared in
   let isTheRightY := Bool.eqb isOdd (lowbit someY) in
   let y :=
     fadd (fmul (toField isTheRightY) someY)
          (fmul (toField (negb isTheRightY)) (fneg someY)) in
   Ok (Group.mk x y))%result.

Definition fromGroup (g : Group.t F) : PublicKey.t F :=
  let isOdd := lowbit (Group.y g) in
  PublicKey.mk (Group.x g) isOdd.

Definition fromPrivateKey (priv : PrivateKey.t S) : result (PublicKey.t F) :=
  (let* g := Group_scale generator (PrivateKey.s priv) in
   Ok (fromGroup g))%result.

(** [PublicKey.from({ x, isOdd })] *)
Definition from (x : F) (isOdd : bool) : PublicKey.t F :=
  PublicKey.mk x isOdd.

Definition empty : PublicKey.t F := from (Field 0) false.

Definition isEmpty (this : PublicKey.t F) : bool :=
  fisZero (PublicKey.x this).

Definition toPublicKey (this : PrivateKey.t S) : result (PublicKey.t F) :=
  fromPrivateKey this.

(** *** Signature *)

Definition create (privKey : PrivateKey.t S) (msg : list F) (st : Rng)
  : result (Signature.t F S) * Rng :=
  match (let* pk := fromPrivateKey privKey in toGroup pk)%result with
  | Throw e => (Throw e, st)
  | Ok publicKey =>
      let d := PrivateKey.s privKey in
      let (kPrime, st') := srandom st in
      match Group_scale generator kPrime with
      | Throw e => (Throw e, st')
      | Ok R =>
          let r := Group.x R in
          let ry := Group.y R in
          let k := if lowbit ry then sneg kPrime else kPrime in
          let e :=
            sfromBits
              (ftoBits
                 (Poseidon_hash
                    (msg ++ [Group.x publicKey; Group.y publicKey; r]))) in
          let s := sadd (smul e d) k in
          (Ok (Signature.mk r s), st')
      end
  end.

Definition verify (this : Signature.t F S) (publicKey : PublicKey.t F)
  (msg : list F) : result bool :=
  (let* point := toGroup publicKey in
   let e :=
     sfromBits
       (ftoBits
          (Poseidon_hash
             (msg ++ [Group.x point; Group.y point; Signature.r this]))) in
   let* eP := Group_scale point e in
   let* sG := Group_scale generator (Signature.s this) in
   let r := gadd (gneg eP) sG in
   Ok (andb (fequals (Group.x r) (Signature.r this))
            (Bool.eqb (lowbit (Group.y r)) false)))%result.

(** *** Names for two expressions of [create] and [verify] *)

(** The challenge: the bits of the hash read as a scalar. *)
Definition challenge (msg : list F) (point : Group.t F) (r : F) : S :=
  sfromBits
    (ftoBits (Poseidon_hash (msg ++ [Group.x point; Group.y point; r]))).

(** The point [verify] compares with the signature, in the arithmetic of
    the curve. *)
Definition candidate (point : Group.t F) (msg : list F)
  (sig : Signature.t F S) : Group.t F :=
  gadd (gneg (gscale point (challenge msg point (Signature.r sig))))
       (gscale generator (Signature.s sig)).

End Code.

(** ** Laws of the interface *)

Section Laws.

Context {F S : Type}.
Context {FO : FieldOps F} {SO : ScalarOps S} {GO : GroupOps F S}.

(** The curve equation of the source: y^2 = x^3 + 5. *)
Definition curve_rhs (x : F) : F := fadd (fmul (fmul x x) x) (Field 5).

Definition on_curve (g : Group.t F) : Prop :=
  fmul (Group.y g) (Group.y g) = curve_rhs (Group.x g).

(** The neutral element of the group has no affine coordinates; in the
    arithmetic of the curve it is the pair (0, 0), which is not on the
    curve.  [add] can return it; [scale] raises instead. *)
Definition gzero : Group.t F := Group.mk (Field 0) (Field 0).

Definition gvalid (g : Group.t F) : Prop := g = gzero \/ on_curve g.

(** [Field] is a field of odd characteristic in which 5 is not a square
    ("there are no curve points with x === 0"); [sqrt] finds a root
    whenever there is one, and negating a non-zero element flips its
    least significant bit. *)
Class FieldLaws : Prop := {
  F_ring :
    ring_theory (Field 0) (Field 1) fadd fmul fsub fneg (@eq F);
  F_integral :
    forall a b : F, fmul a b = Field 0 -> a = Field 0 \/ b = Field 0;
  fequals_spec : forall a b : F, fequals a b = true <-> a = b;
  fisZero_spec : forall a : F, fisZero a = true <-> a = Field 0;
  fsqrt_sound : forall a root : F, fsqrt a = Some root -> fmul root root = a;
  fsqrt_complete : forall a y : F, fmul y y = a -> fsqrt a <> None;
  lowbit_zero : lowbit (Field 0) = false;
  lowbit_neg :
    forall a : F, a <> Field 0 -> lowbit (fneg a) = negb (lowbit a);
  five_nonresidue : forall y : F, fmul y y <> Field 5
}.

(** [Scalar] is a field of odd characteristic. *)
Class ScalarLaws : Prop := {
  S_ring : ring_theory szero sone sadd smul ssub sneg (@eq S);
  S_inverse : forall a : S, a = szero \/ exists b : S, smul a b = sone;
  S_two : sadd sone sone <> szero
}.

(** The points of the curve, with the neutral element, are a module over
    [Scalar]. *)
Class GroupLaws : Prop := {
  generator_on_curve : on_curve generator;
  gadd_valid :
    forall a b, gvalid a -> gvalid b -> gvalid (gadd a b);
  gscale_valid :
    forall a (k : S), gvalid a -> gvalid (gscale a k);
  gneg_coords :
    forall a, gvalid a ->
      gneg a = Group.mk (Group.x a) (fneg (Group.y a));
  gadd_assoc :
    forall a b c, gvalid a -> gvalid b -> gvalid c ->
      gadd a (gadd b c) = gadd (gadd a b) c;
  gadd_comm :
    forall a b, gvalid a -> gvalid b -> gadd a b = gadd b a;
  gadd_zero_l : forall a, gvalid a -> gadd gzero a = a;
  gadd_neg_r : forall a, gvalid a -> gadd a (gneg a) = gzero;
  gscale_one : forall a, gvalid a -> gscale a sone = a;
  gscale_add :
    forall a (j k : S), gvalid a ->
      gscale a (sadd j k) = gadd (gscale a j) (gscale a k);
  gscale_mul :
    forall a (j k : S), gvalid a ->
      gscale (gscale a j) k = gscale a (smul j k)
}.

End Laws.

Arguments FieldLaws F {FO}.
Arguments ScalarLaws S {SO}.
Arguments GroupLaws F S {FO SO GO}.
Arguments curve_rhs {F FO} x.
Arguments on_curve {F FO} g.
Arguments gzero {F FO}.
Arguments gvalid {F FO} g.

(** ** A small model of the interface

    The curve y^2 = x^3 + 5 over the field of seven elements: 5 is not a
    square there, and the six points with the neutral element form a group
    of order seven, so the scalars are the integers modulo 7 as well. *)

Module Curve7.

Inductive Z7 : Set := z0 | z1 | z2 | z3 | z4 | z5 | z6.

Definition to_Z (a : Z7) : Z :=
  match a with
  | z0 => 0 | z1 => 1 | z2 => 2 | z3 => 3 | z4 => 4 | z5 => 5 | z6 => 6
  end.

Definition of_Z (n : Z) : Z7 :=
  match n mod 7 with
  | 0 => z0 | 1 => z1 | 2 => z2 | 3 => z3 | 4 => z4 | 5 => z5 | _ => z6
  end%Z.

Definition add (a b : Z7) : Z7 := of_Z (to_Z a + to_Z b).
Definition mul (a b : Z7) : Z7 := of_Z (to_Z a * to_Z b).
Definition neg (a : Z7) : Z7 := of_Z (- to_Z a).
Definition sub (a b : Z7) : Z7 := add a (neg b).
Definition eqb (a b : Z7) : bool := Z.eqb (to_Z a) (to_Z b).

(** The inverse of a non-zero element is its fifth power. *)
Definition inv (a : Z7) : Z7 := mul (mul (mul a a) (mul a a)) a.

(** One root is fixed for each of the squares 0, 1, 2 and 4. *)
Definition sqrt (a : Z7) : option Z7 :=
  match a with
  | z0 => Some z0
  | z1 => Some z1
  | z2 => Some z3
  | z4 => Some z2
  | _ => None
  end.

(** Three bits, least significant first. *)
Definition toBits (a : Z7) : list bool :=
  [Z.testbit (to_Z a) 0; Z.testbit (to_Z a) 1; Z.testbit (to_Z a) 2].

Definition fromBits (bs : list bool) : Z7 :=
  of_Z (fold_right (fun b acc => Z.b2z b + 2 * acc)%Z 0%Z bs).

(** The random source is the list of the scalars still to be drawn. *)
Definition draw (st : list Z7) : Z7 * list Z7 :=
  match st with
  | [] => (z1, [])
  | k :: st' => (k, st')
  end.

Definition is_zero (p : Group.t Z7) : bool :=
  eqb (Group.x p) z0 && eqb (Group.y p) z0.

(** Chord and tangent addition in affine coordinates. *)
Definition padd (p q : Group.t Z7) : Group.t Z7 :=
  if is_zero p then q
  else if is_zero q then p
  else
    let x1 := Group.x p in
    let y1 := Group.y p in
    let x2 := Group.x q in
    let y2 := Group.y q in
    if eqb x1 x2 && eqb y1 (neg y2) then Group.mk z0 z0
    else
      let l :=
        if eqb x1 x2
        then mul (mul z3 (mul x1 x1)) (inv (mul z2 y1))
        else mul (sub y2 y1) (inv (sub x2 x1)) in
      let x3 := sub (sub (mul l l) x1) x2 in
      Group.mk x3 (sub (mul l (sub x1 x3)) y1).

Definition pneg (p : Group.t Z7) : Group.t Z7 :=
  Group.mk (Group.x p) (neg (Group.y p)).

Definition pscale (p : Group.t Z7) (k : Z7) : Group.t Z7 :=
  Nat.iter (Z.to_nat (to_Z k)) (padd p) (Group.mk z0 z0).

Definition hash (l : list Z7) : Z7 :=
  fold_left (fun acc a => add (mul acc z3) (add a z1)) l z0.

#[global] Instance field_ops : FieldOps Z7 := {|
  Field := of_Z;
  fadd := add;
  fmul := mul;
  fneg := neg;
  fsqrt := sqrt;
  fequals := eqb;
  fisZero := fun a => eqb a z0;
  ftoBits := toBits
|}.

#[global] Instance scalar_ops : ScalarOps Z7 := {|
  szero := z0;
  sone := z1;
  sadd := add;
  smul := mul;
  sneg := neg;
  sfromBits := fromBits;
  Rng := list Z7;
  srandom := draw
|}.

(** A random source that will deliver the scalars of [l], in order. *)
Definition seed (l : list Z7) : @Rng Z7 scalar_ops := l.

#[global] Instance group_ops : GroupOps Z7 Z7 := {|
  generator := Group.mk z3 z2;
  gadd := padd;
  gneg := pneg;
  gscale := pscale
|}.

#[global] Instance hash_ops : HashOps Z7 := {|
  Poseidon_hash := hash
|}.

(** The neutral element and the six points of the curve. *)
Definition points : list (Group.t Z7) :=
  [ Group.mk z0 z0; Group.mk z3 z2; Group.mk z5 z2; Group.mk z6 z5;
    Group.mk z6 z2; Group.mk z5 z5; Group.mk z3 z5 ].

End Curve7.

(** ** Consequences of the laws *)

Create HintDb curve.

Section Theory.

Context {F S : Type}.
Context {FO : FieldOps F} {SO : ScalarOps S}.
Context {GO : GroupOps F S} {HO : HashOps F}.
Context {FL : FieldLaws F} {SL : ScalarLaws S} {GL : GroupLaws F S}.

Add Ring Fring : (F_ring (F := F)).
Add Ring Sring : (S_ring (S := S)).

(** *** Field *)

Lemma select_root (b : bool) (a : F) :
  fadd (fmul (toField b) a) (fmul (toField (negb b)) (fneg a)) =
  if b then a else fneg a.
Proof. destruct b; simpl; ring. Qed.

Lemma square_roots (a b : F) :
  fmul a a = fmul b b -> a = b \/ a = fneg b.
Proof.
  intros Hsq.
  assert (Hprod : fmul (fsub a b) (fadd a b) = Field 0).
  { transitivity (fsub (fmul a a) (fmul b b)); [ring|].
    rewrite Hsq. ring. }
  destruct (F_integral _ _ Hprod) as [Hd | Hs].
  - left. transitivity (fadd (fsub a b) b); [ring|].
    rewrite Hd. ring.
  - right. transitivity (fsub (fadd a b) b); [ring|].
    rewrite Hs. ring.
Qed.

Lemma fsqrt_total (a y : F) :
  fmul y y = a -> exists root, fsqrt a = Some root /\ fmul root root = a.
Proof.
  intros Hy. destruct (fsqrt a) as [root|] eqn:Hr.
  - exists root. split; [reflexivity|]. now apply fsqrt_sound.
  - exfalso. exact (fsqrt_complete a y Hy Hr).
Qed.

Lemma fsqrt_none (a : F) :
  (forall y, fmul y y <> a) -> fsqrt a = None.
Proof.
  intros Hno. destruct (fsqrt a) as [root|] eqn:Hr; [|reflexivity].
  exfalso. exact (Hno root (fsqrt_sound _ _ Hr)).
Qed.

Lemma fzero_dec (a : F) : a = Field 0 \/ a <> Field 0.
Proof.
  destruct (fisZero a) eqn:Hz.
  - left. now apply fisZero_spec.
  - right. intros Ha. apply fisZero_spec in Ha. congruence.
Qed.

Lemma lowbit_nonzero (a : F) : lowbit a = true -> a <> Field 0.
Proof.
  intros Hb Ha. subst a. rewrite lowbit_zero in Hb. discriminate.
Qed.

(** *** Decompression *)

Lemma toGroup_root (pk : PublicKey.t F) (someY : F) :
  fsqrt (curve_rhs (PublicKey.x pk)) = Some someY ->
  toGroup pk =
  Ok (Group.mk (PublicKey.x pk)
        (if Bool.eqb (PublicKey.isOdd pk) (lowbit someY)
         then someY else fneg someY)).
Proof.
  intros Hr. unfold toGroup, Field_sqrt. fold (curve_rhs (PublicKey.x pk)).
  rewrite Hr. simpl. now rewrite select_root.
Qed.

Lemma toGroup_no_root (pk : PublicKey.t F) :
  fsqrt (curve_rhs (PublicKey.x pk)) = None ->
  toGroup pk = Throw InvalidPoint.
Proof.
  intros Hr. unfold toGroup, Field_sqrt. fold (curve_rhs (PublicKey.x pk)).
  now rewrite Hr.
Qed.

Lemma toGroup_on_curve (pk : PublicKey.t F) (p : Group.t F) :
  toGroup pk = Ok p -> on_curve p /\ Group.x p = PublicKey.x pk.
Proof.
  destruct (fsqrt (curve_rhs (PublicKey.x pk))) as [root|] eqn:Hr.
  - rewrite (toGroup_root _ _ Hr). intros [= <-]. split; [|reflexivity].
    unfold on_curve. simpl. apply fsqrt_sound in Hr. rewrite <- Hr.
    destruct (Bool.eqb _ _); ring.
  - rewrite (toGroup_no_root _ Hr). discriminate.
Qed.

Lemma toGroup_fromGroup (p : Group.t F) :
  on_curve p -> toGroup (fromGroup p) = Ok p.
Proof.
  destruct p as [x y]. unfold on_curve. simpl. intros Hc.
  destruct (fsqrt_total _ _ Hc) as [root [Hr Hroot]].
  rewrite (toGroup_root (fromGroup (Group.mk x y)) _ Hr). simpl.
  f_equal. f_equal.
  rewrite <- Hc in Hroot.
  destruct (square_roots _ _ Hroot) as [-> | ->].
  - now rewrite Bool.eqb_reflx.
  - destruct (fzero_dec y) as [-> | Hy].
    + destruct (Bool.eqb _ _); ring.
    + rewrite (lowbit_neg _ Hy). destruct (lowbit y); simpl; ring.
Qed.

(** *** Group *)

Lemma gzero_off_curve : ~ on_curve (gzero (F := F)).
Proof.
  unfold on_curve, curve_rhs, gzero. simpl. intros Hc.
  apply (five_nonresidue (Field 0)). rewrite Hc. ring.
Qed.

Lemma gvalid_gzero : gvalid (gzero (F := F)).
Proof. now left. Qed.

Lemma gvalid_on_curve (a : Group.t F) : on_curve a -> gvalid a.
Proof. now right. Qed.

Lemma gvalid_generator : gvalid generator.
Proof. right. apply generator_on_curve. Qed.

Lemma gneg_valid (a : Group.t F) : gvalid a -> gvalid (gneg a).
Proof.
  intros Ha. rewrite (gneg_coords a Ha). destruct Ha as [-> | Hc].
  - left. unfold gzero. simpl. f_equal. ring.
  - right. unfold on_curve in *. simpl. rewrite <- Hc. ring.
Qed.

Hint Resolve gvalid_gzero gvalid_generator gneg_valid gadd_valid
  gscale_valid gvalid_on_curve : curve.

Lemma gadd_zero_r (a : Group.t F) : gvalid a -> gadd a gzero = a.
Proof.
  intros Ha. rewrite gadd_comm by eauto with curve. now apply gadd_zero_l.
Qed.

Lemma gadd_neg_l (a : Group.t F) : gvalid a -> gadd (gneg a) a = gzero.
Proof.
  intros Ha. rewrite gadd_comm by eauto with curve. now apply gadd_neg_r.
Qed.

Lemma gadd_cancel_l (a b : Group.t F) :
  gvalid a -> gvalid b -> gadd (gneg a) (gadd a b) = b.
Proof.
  intros Ha Hb. rewrite gadd_assoc by eauto with curve.
  rewrite gadd_neg_l by assumption. now apply gadd_zero_l.
Qed.

Lemma gadd_idem (a : Group.t F) : gvalid a -> gadd a a = a -> a = gzero.
Proof.
  intros Ha Hidem.
  rewrite <- (gadd_cancel_l a a Ha Ha). rewrite Hidem.
  now apply gadd_neg_l.
Qed.

Lemma gneg_unique (a b : Group.t F) :
  gvalid a -> gvalid b -> gadd a b = gzero -> b = gneg a.
Proof.
  intros Ha Hb Hab.
  rewrite <- (gadd_cancel_l a b Ha Hb). rewrite Hab.
  apply gadd_zero_r. eauto with curve.
Qed.

Lemma gscale_zero (a : Group.t F) : gvalid a -> gscale a szero = gzero.
Proof.
  intros Ha. apply gadd_idem; [eauto with curve|].
  rewrite <- gscale_add by assumption. f_equal. ring.
Qed.

Lemma gscale_gzero (k : S) : gscale gzero k = gzero.
Proof.
  rewrite <- (gscale_zero gzero gvalid_gzero) at 1.
  rewrite gscale_mul by eauto with curve.
  replace (smul szero k) with szero by ring.
  apply gscale_zero. eauto with curve.
Qed.

Lemma gscale_neg (a : Group.t F) (k : S) :
  gvalid a -> gscale a (sneg k) = gneg (gscale a k).
Proof.
  intros Ha. apply gneg_unique; [eauto with curve ..|].
  rewrite <- gscale_add by assumption.
  replace (sadd k (sneg k)) with szero by ring.
  now apply gscale_zero.
Qed.

(** A non-zero multiple of a curve point is a curve point: the scalars are
    a field, so the multiple can be scaled back. *)
Lemma gscale_on_curve (a : Group.t F) (k : S) :
  on_curve a -> k <> szero -> on_curve (gscale a k).
Proof.
  intros Hc Hk.
  destruct (gscale_valid a k (gvalid_on_curve a Hc)) as [Hz | Hon];
    [|assumption].
  exfalso. destruct (S_inverse k) as [-> | [b Hb]]; [now apply Hk|].
  apply gzero_off_curve.
  rewrite <- (gscale_gzero b), <- Hz.
  rewrite gscale_mul by eauto with curve. rewrite Hb.
  rewrite gscale_one by eauto with curve. assumption.
Qed.

(** The curve has no point of order two, that is none with y = 0. *)
Lemma on_curve_y_nonzero (a : Group.t F) :
  on_curve a -> Group.y a <> Field 0.
Proof.
  intros Hc Hy.
  assert (Hneg : gneg a = a).
  { rewrite gneg_coords by eauto with curve. destruct a as [x y].
    simpl in *. subst y. f_equal. ring. }
  assert (Hdbl : gscale a (sadd sone sone) = gzero).
  { rewrite gscale_add, gscale_one by eauto with curve.
    rewrite <- Hneg at 2. apply gadd_neg_r. eauto with curve. }
  apply gzero_off_curve. rewrite <- Hdbl.
  apply gscale_on_curve; [assumption | apply S_two].
Qed.

Lemma fromPrivateKey_on_curve (priv : PrivateKey.t S) :
  PrivateKey.s priv <> szero ->
  on_curve (gscale generator (PrivateKey.s priv)).
Proof. intros Hd. apply gscale_on_curve; [apply generator_on_curve | exact Hd]. Qed.

Lemma gscale_generator_zero (k : S) :
  gscale generator k = gzero -> k = szero.
Proof.
  intros Hz. destruct (S_inverse k) as [Hk | [b Hb]]; [assumption|].
  exfalso. apply gzero_off_curve.
  rewrite <- (gscale_gzero b), <- Hz.
  rewrite gscale_mul by eauto with curve. rewrite Hb.
  rewrite gscale_one by eauto with curve. apply generator_on_curve.
Qed.

(** *** The nonce *)

(** After normalisation the nonce point has the x-coordinate of the drawn
    one and an even y-coordinate. *)
Lemma nonce_normalised (kPrime : S) :
  let R := gscale generator kPrime in
  let k := if lowbit (Group.y R) then sneg kPrime else kPrime in
  Group.x (gscale generator k) = Group.x R /\
  lowbit (Group.y (gscale generator k)) = false.
Proof.
  intros R k. subst k. destruct (lowbit (Group.y R)) eqn:Hb.
  - rewrite gscale_neg by eauto with curve.
    rewrite gneg_coords by eauto with curve. simpl. fold R.
    split; [reflexivity|].
    rewrite lowbit_neg by now apply lowbit_nonzero.
    now rewrite Hb.
  - split; [reflexivity | exact Hb].
Qed.

(** Drawing the opposite nonce changes neither the x-coordinate of the
    nonce point nor the normalised nonce. *)
Lemma nonce_opposite (kPrime : S) :
  let R := gscale generator kPrime in
  let R' := gscale generator (sneg kPrime) in
  Group.x R' = Group.x R /\
  (if lowbit (Group.y R') then sneg (sneg kPrime) else sneg kPrime) =
  (if lowbit (Group.y R) then sneg kPrime else kPrime).
Proof.
  intros R R'. subst R'.
  destruct (gscale_valid generator kPrime gvalid_generator) as [Hz | Hc].
  - apply gscale_generator_zero in Hz. subst R. rewrite Hz.
    replace (sneg szero) with szero by ring.
    replace (sneg szero) with szero by ring.
    split; reflexivity.
  - rewrite gscale_neg by eauto with curve.
    rewrite gneg_coords by eauto with curve. simpl. fold R.
    split; [reflexivity|].
    rewrite lowbit_neg by now apply on_curve_y_nonzero.
    destruct (lowbit (Group.y R)); simpl; [reflexivity | ring].
Qed.

(** *** Scalars, points and [Group.scale] *)

Lemma szero_dec (a : S) : a = szero \/ a <> szero.
Proof.
  destruct (S_inverse a) as [Ha | [b Hb]]; [now left | right].
  intros Ha. subst a. apply S_two.
  replace sone with (smul szero b) by exact Hb. ring.
Qed.

Lemma sneg_nonzero (a : S) : a <> szero -> sneg a <> szero.
Proof.
  intros Ha Hn. apply Ha.
  transitivity (sneg (sneg a)); [ring|]. rewrite Hn. ring.
Qed.

Lemma on_curve_x_nonzero (a : Group.t F) :
  on_curve a -> Group.x a <> Field 0.
Proof.
  unfold on_curve, curve_rhs. intros Hc Hx. rewrite Hx in Hc.
  apply (five_nonresidue (Group.y a)). rewrite Hc. ring.
Qed.

Lemma to_affine_on_curve (q : Group.t F) :
  on_curve q -> to_affine_exn q = Ok q.
Proof.
  intros Hc. unfold to_affine_exn.
  destruct (fisZero (Group.x q)) eqn:Hx; [|reflexivity].
  apply fisZero_spec in Hx. now destruct (on_curve_x_nonzero q Hc).
Qed.

Lemma to_affine_gzero : to_affine_exn (F := F) gzero = Throw GotIdentity.
Proof.
  unfold to_affine_exn, gzero. simpl.
  now rewrite (proj2 (fisZero_spec (Field 0)) eq_refl).
Qed.

Lemma Group_scale_nonzero (p : Group.t F) (k : S) :
  on_curve p -> k <> szero -> Group_scale p k = Ok (gscale p k).
Proof.
  intros Hp Hk. unfold Group_scale. apply to_affine_on_curve.
  now apply gscale_on_curve.
Qed.

Lemma Group_scale_zero (p : Group.t F) :
  gvalid p -> Group_scale p szero = Throw GotIdentity.
Proof.
  intros Hp. unfold Group_scale. rewrite (gscale_zero p Hp).
  apply to_affine_gzero.
Qed.

Lemma Group_scale_inv (p q : Group.t F) (k : S) :
  on_curve p -> Group_scale p k = Ok q ->
  k <> szero /\ q = gscale p k /\ on_curve q.
Proof.
  intros Hp Hs. destruct (szero_dec k) as [-> | Hk].
  - rewrite (Group_scale_zero p (gvalid_on_curve p Hp)) in Hs.
    discriminate Hs.
  - rewrite (Group_scale_nonzero p k Hp Hk) in Hs. injection Hs as <-.
    split; [assumption|]. split; [reflexivity|].
    now apply gscale_on_curve.
Qed.

(** *** Deriving the public key *)

Lemma toPublicKey_nonzero (priv : PrivateKey.t S) :
  PrivateKey.s priv <> szero ->
  toPublicKey priv = Ok (fromGroup (gscale generator (PrivateKey.s priv))).
Proof.
  intros Hd. unfold toPublicKey, fromPrivateKey.
  now rewrite (Group_scale_nonzero generator _ generator_on_curve Hd).
Qed.

Lemma toPublicKey_zero (priv : PrivateKey.t S) :
  PrivateKey.s priv = szero -> toPublicKey priv = Throw GotIdentity.
Proof.
  intros Hd. unfold toPublicKey, fromPrivateKey.
  now rewrite Hd, (Group_scale_zero generator gvalid_generator).
Qed.

Lemma toPublicKey_inv (priv : PrivateKey.t S) (pub : PublicKey.t F) :
  toPublicKey priv = Ok pub ->
  PrivateKey.s priv <> szero /\
  pub = fromGroup (gscale generator (PrivateKey.s priv)).
Proof.
  intros Hp. destruct (szero_dec (PrivateKey.s priv)) as [Hd | Hd].
  - rewrite (toPublicKey_zero priv Hd) in Hp. discriminate Hp.
  - rewrite (toPublicKey_nonzero priv Hd) in Hp. injection Hp as <-.
    now split.
Qed.

(** *** Runs of [create] and [verify] *)

Lemma create_run (priv : PrivateKey.t S) (msg : list F) (st st' : Rng)
  (kPrime : S) :
  PrivateKey.s priv <> szero ->
  srandom st = (kPrime, st') ->
  kPrime <> szero ->
  let d := PrivateKey.s priv in
  let publicKeyPoint := gscale generator d in
  let R := gscale generator kPrime in
  let k := if lowbit (Group.y R) then sneg kPrime else kPrime in
  let e := challenge msg publicKeyPoint (Group.x R) in
  create priv msg st =
  (Ok (Signature.mk (Group.x R) (sadd (smul e d) k)), st').
Proof.
  intros Hd Hdraw Hk. unfold create.
  change (fromPrivateKey priv) with (toPublicKey priv).
  rewrite (toPublicKey_nonzero priv Hd). cbn [rbind].
  rewrite (toGroup_fromGroup _ (fromPrivateKey_on_curve priv Hd)).
  rewrite Hdraw.
  rewrite (Group_scale_nonzero generator kPrime generator_on_curve Hk).
  reflexivity.
Qed.

(** With the zero scalar [create] raises in [fromPrivateKey], before the
    nonce is drawn. *)
Lemma create_zero_key (priv : PrivateKey.t S) (msg : list F) (st : Rng) :
  PrivateKey.s priv = szero -> create priv msg st = (Throw GotIdentity, st).
Proof.
  intros Hd. unfold create.
  change (fromPrivateKey priv) with (toPublicKey priv).
  now rewrite (toPublicKey_zero priv Hd).
Qed.

(** With the nonce zero [create] raises after the draw. *)
Lemma create_zero_nonce (priv : PrivateKey.t S) (msg : list F)
  (st st' : Rng) :
  PrivateKey.s priv <> szero ->
  srandom st = (szero, st') ->
  create priv msg st = (Throw GotIdentity, st').
Proof.
  intros Hd Hdraw. unfold create.
  change (fromPrivateKey priv) with (toPublicKey priv).
  rewrite (toPublicKey_nonzero priv Hd). cbn [rbind].
  rewrite (toGroup_fromGroup _ (fromPrivateKey_on_curve priv Hd)).
  rewrite Hdraw.
  now rewrite (Group_scale_zero generator gvalid_generator).
Qed.

Lemma verify_run (sig : Signature.t F S) (pub : PublicKey.t F)
  (msg : list F) (point : Group.t F) :
  toGroup pub = Ok point ->
  challenge msg point (Signature.r sig) <> szero ->
  Signature.s sig <> szero ->
  verify sig pub msg =
  Ok (andb (fequals (Group.x (candidate point msg sig)) (Signature.r sig))
           (Bool.eqb (lowbit (Group.y (candidate point msg sig))) false)).
Proof.
  intros Hp He Hs. unfold verify. rewrite Hp. cbn [rbind].
  fold (challenge msg point (Signature.r sig)).
  rewrite (Group_scale_nonzero point _ (proj1 (toGroup_on_curve _ _ Hp)) He).
  cbn [rbind].
  rewrite (Group_scale_nonzero generator _ generator_on_curve Hs).
  reflexivity.
Qed.

Lemma verify_throw (sig : Signature.t F S) (pub : PublicKey.t F)
  (msg : list F) (point : Group.t F) :
  toGroup pub = Ok point ->
  challenge msg point (Signature.r sig) = szero \/ Signature.s sig = szero ->
  verify sig pub msg = Throw GotIdentity.
Proof.
  intros Hp Hz. unfold verify. rewrite Hp. cbn [rbind].
  fold (challenge msg point (Signature.r sig)).
  pose proof (proj1 (toGroup_on_curve _ _ Hp)) as Hc.
  destruct (szero_dec (challenge msg point (Signature.r sig))) as [He | He].
  - now rewrite He, (Group_scale_zero point (gvalid_on_curve point Hc)).
  - rewrite (Group_scale_nonzero point _ Hc He). cbn [rbind].
    destruct Hz as [Hz | Hz]; [contradiction|].
    now rewrite Hz, (Group_scale_zero generator gvalid_generator).
Qed.

Lemma verify_true_inv (sig : Signature.t F S) (pub : PublicKey.t F)
  (msg : list F) :
  verify sig pub msg = Ok true ->
  exists point,
    toGroup pub = Ok point /\ on_curve point /\
    challenge msg point (Signature.r sig) <> szero /\
    Signature.s sig <> szero /\
    Group.x (candidate point msg sig) = Signature.r sig /\
    lowbit (Group.y (candidate point msg sig)) = false.
Proof.
  intros Hv. destruct (toGroup pub) as [point|err] eqn:Hp.
  - destruct (szero_dec (challenge msg point (Signature.r sig))) as [He | He];
      [rewrite (verify_throw sig pub msg point Hp (or_introl He)) in Hv;
       discriminate Hv|].
    destruct (szero_dec (Signature.s sig)) as [Hs | Hs];
      [rewrite (verify_throw sig pub msg point Hp (or_intror Hs)) in Hv;
       discriminate Hv|].
    rewrite (verify_run sig pub msg point Hp He Hs) in Hv.
    injection Hv as Hv. apply andb_prop in Hv. destruct Hv as [Hx Hy].
    exists point. split; [reflexivity|].
    split; [exact (proj1 (toGroup_on_curve _ _ Hp))|].
    split; [assumption|]. split; [assumption|].
    split; [now apply fequals_spec | now apply Bool.eqb_prop].
  - unfold verify in Hv. rewrite Hp in Hv. discriminate Hv.
Qed.

(** For the point of a private key the candidate of [verify] is the
    multiple s - d.e of the generator. *)
Lemma candidate_derived (d : S) (msg : list F) (sig : Signature.t F S) :
  candidate (gscale generator d) msg sig =
  gscale generator
    (sadd (sneg (smul d (challenge msg (gscale generator d) (Signature.r sig))))
          (Signature.s sig)).
Proof.
  unfold candidate. rewrite gscale_mul by eauto with curve.
  rewrite <- gscale_neg by eauto with curve.
  now rewrite <- gscale_add by eauto with curve.
Qed.

(** The signature that [create] builds from the nonce [kPrime] is accepted
    when neither the challenge nor s is zero. *)
Lemma created_signature_verifies (priv : PrivateKey.t S) (msg : list F)
  (kPrime : S) :
  PrivateKey.s priv <> szero ->
  let d := PrivateKey.s priv in
  let R := gscale generator kPrime in
  let k := if lowbit (Group.y R) then sneg kPrime else kPrime in
  let e := challenge msg (gscale generator d) (Group.x R) in
  e <> szero ->
  sadd (smul e d) k <> szero ->
  verify (Signature.mk (Group.x R) (sadd (smul e d) k))
         (fromGroup (gscale generator d)) msg
  = Ok true.
Proof.
  intros Hd d R k e He Hs.
  assert (Hp : toGroup (fromGroup (gscale generator d)) =
               Ok (gscale generator d))
    by exact (toGroup_fromGroup _ (fromPrivateKey_on_curve priv Hd)).
  rewrite (verify_run (Signature.mk (Group.x R) (sadd (smul e d) k)) _ msg _
             Hp He Hs).
  rewrite candidate_derived. cbn [Signature.r Signature.s]. fold e.
  replace (sadd (sneg (smul d e)) (sadd (smul e d) k)) with k by ring.
  destruct (nonce_normalised kPrime) as [Hx Hy]. fold R in Hx, Hy.
  fold k in Hx, Hy. rewrite Hy.
  apply fequals_spec in Hx. now rewrite Hx.
Qed.

(** *** The claims *)

(** C1 (amended): for a private key with a non-zero scalar, a message and a
    drawn nonce that is not zero, such that neither the challenge e nor
    s = e.d + k is zero, [Signature.create] returns a signature and
    verifying it with the derived public key returns true. *)
Theorem sign_verify_correct (priv : PrivateKey.t S) (msg : list F)
  (st st' : Rng) (kPrime : S) :
  PrivateKey.s priv <> szero ->
  srandom st = (kPrime, st') ->
  kPrime <> szero ->
  let d := PrivateKey.s priv in
  let R := gscale generator kPrime in
  let k := if lowbit (Group.y R) then sneg kPrime else kPrime in
  let e := challenge msg (gscale generator d) (Group.x R) in
  e <> szero ->
  sadd (smul e d) k <> szero ->
  exists sig pub,
    create priv msg st = (Ok sig, st') /\
    toPublicKey priv = Ok pub /\
    verify sig pub msg = Ok true.
Proof.
  intros Hd Hdraw Hk d R k e He Hs.
  exists (Signature.mk (Group.x R) (sadd (smul e d) k)).
  exists (fromGroup (gscale generator d)).
  split; [exact (create_run priv msg st st' kPrime Hd Hdraw Hk)|].
  split; [exact (toPublicKey_nonzero priv Hd)|].
  exact (created_signature_verifies priv msg kPrime Hd He Hs).
Qed.

(** C2: when x^3 + 5 is a square, [toGroup] takes the root [someY] that
    [sqrt] returns for x*x*x + 5 and returns the point (x, y) with
    y = someY if [isOdd] equals the low bit of [someY], and y = -someY
    otherwise. *)
Theorem toGroup_selects_root (x : F) (isOdd : bool) :
  (exists y, fmul y y = fadd (fmul (fmul x x) x) (Field 5)) ->
  exists someY,
    fsqrt (fadd (fmul (fmul x x) x) (Field 5)) = Some someY /\
    fmul someY someY = fadd (fmul (fmul x x) x) (Field 5) /\
    toGroup (from x isOdd) =
    Ok (Group.mk x
          (if Bool.eqb isOdd (lowbit someY) then someY else fneg someY)).
Proof.
  intros [y Hy]. destruct (fsqrt_total _ _ Hy) as [someY [Hr Hsq]].
  exists someY. split; [exact Hr|]. split; [exact Hsq|].
  exact (toGroup_root (from x isOdd) someY Hr).
Qed.

(** C3: decompressing the compression of a curve point gives the point
    back, and compressing the decompression of a pair (x, isOdd) for which
    x^3 + 5 has a square root gives the pair back. *)
Theorem compress_decompress_inverse :
  (forall p : Group.t F, on_curve p -> toGroup (fromGroup p) = Ok p) /\
  (forall (x : F) (isOdd : bool),
      (exists y, fmul y y = curve_rhs x) ->
      exists p,
        toGroup (from x isOdd) = Ok p /\ fromGroup p = from x isOdd).
Proof.
  split; [exact toGroup_fromGroup|].
  intros x isOdd [y Hy].
  destruct (fsqrt_total _ _ Hy) as [someY [Hr Hsq]].
  rewrite (toGroup_root (from x isOdd) someY Hr).
  eexists. split; [reflexivity|].
  unfold fromGroup, from. simpl. f_equal.
  destruct (Bool.eqb isOdd (lowbit someY)) eqn:Hb.
  - symmetry. now apply Bool.eqb_prop.
  - assert (Hnz : someY <> Field 0)
      by exact (on_curve_y_nonzero (Group.mk x someY) Hsq).
    rewrite (lowbit_neg _ Hnz).
    destruct isOdd, (lowbit someY); simpl in *; congruence.
Qed.

(** C4 (amended): [verify] returns true exactly when the public key
    decompresses to a point, neither the recomputed challenge e nor s is
    zero, and the candidate (-e).point + s.Generator has the x-coordinate r
    and a y-coordinate whose low bit is false.  For a key that decompresses
    it returns the conjunction of the two tests when e and s are not zero,
    and raises in [scale] when one of them is. *)
Theorem verify_accepts_iff (pub : PublicKey.t F) (msg : list F)
  (sig : Signature.t F S) :
  (verify sig pub msg = Ok true <->
   exists point,
     toGroup pub = Ok point /\
     let e := sfromBits (ftoBits (Poseidon_hash
                (msg ++ [Group.x point; Group.y point; Signature.r sig]))) in
     let cand :=
       gadd (gscale point (sneg e)) (gscale generator (Signature.s sig)) in
     e <> szero /\ Signature.s sig <> szero /\
     Group.x cand = Signature.r sig /\ lowbit (Group.y cand) = false) /\
  (forall point, toGroup pub = Ok point ->
     let e := challenge msg point (Signature.r sig) in
     (e <> szero -> Signature.s sig <> szero ->
      verify sig pub msg =
      Ok (andb (fequals (Group.x (candidate point msg sig)) (Signature.r sig))
               (Bool.eqb (lowbit (Group.y (candidate point msg sig))) false)))
     /\
     (e = szero \/ Signature.s sig = szero ->
      verify sig pub msg = Throw GotIdentity)).
Proof.
  split.
  - split.
    + intros Hv.
      destruct (verify_true_inv sig pub msg Hv)
        as [point [Hp [Hc [He [Hs [Hx Hy]]]]]].
      exists point. split; [exact Hp|]. cbv zeta.
      fold (challenge msg point (Signature.r sig)).
      rewrite gscale_neg by now apply gvalid_on_curve.
      fold (candidate point msg sig). now repeat split.
    + intros [point [Hp Hc]]. cbv zeta in Hc.
      fold (challenge msg point (Signature.r sig)) in Hc.
      rewrite gscale_neg in Hc
        by (apply gvalid_on_curve; exact (proj1 (toGroup_on_curve _ _ Hp))).
      fold (candidate point msg sig) in Hc.
      destruct Hc as [He [Hs [Hx Hy]]].
      rewrite (verify_run sig pub msg point Hp He Hs).
      apply fequals_spec in Hx. now rewrite Hx, Hy.
  - intros point Hp e. split.
    + intros He Hs. exact (verify_run sig pub msg point Hp He Hs).
    + intros Hz. exact (verify_throw sig pub msg point Hp Hz).
Qed.

(** C5 (amended): for every private key with a non-zero scalar d, message
    and drawn nonce k' that is not zero, [Signature.create] takes k = -k'
    when the low bit of the y-coordinate of Generator.k' is set and k = k'
    otherwise, reads the bits of Hash(msg ++ [P.x, P.y, r]) as the scalar
    e, where P is Generator.d, and returns (r, e.d + k) with r the
    x-coordinate of Generator.k'. *)
Theorem create_signature_regular (priv : PrivateKey.t S)
  (msg : list F) (st st' : Rng) (kPrime : S) :
  PrivateKey.s priv <> szero ->
  srandom st = (kPrime, st') ->
  kPrime <> szero ->
  let d := PrivateKey.s priv in
  let publicKeyPoint := gscale generator d in
  let r := Group.x (gscale generator kPrime) in
  let ry := Group.y (gscale generator kPrime) in
  let k := if lowbit ry then sneg kPrime else kPrime in
  let e :=
    sfromBits
      (ftoBits
         (Poseidon_hash
            (msg ++ [Group.x publicKeyPoint; Group.y publicKeyPoint; r]))) in
  create priv msg st = (Ok (Signature.mk r (sadd (smul e d) k)), st').
Proof.
  intros Hd Hdraw Hk. exact (create_run priv msg st st' kPrime Hd Hdraw Hk).
Qed.

(** C6 (amended): [PublicKey.empty()] is (x = 0, isOdd = false); [isEmpty]
    returns true exactly for the keys with x = 0; a private key whose
    scalar is not zero has a public key, which is not empty; and no key
    that [toPublicKey] returns is empty. *)
Theorem empty_key_sentinel :
  empty = PublicKey.mk (Field 0) false /\
  (forall pk : PublicKey.t F,
      isEmpty pk = true <-> PublicKey.x pk = Field 0) /\
  (forall priv : PrivateKey.t S,
      PrivateKey.s priv <> szero ->
      exists pub, toPublicKey priv = Ok pub /\ isEmpty pub = false) /\
  (forall (priv : PrivateKey.t S) (pub : PublicKey.t F),
      toPublicKey priv = Ok pub -> isEmpty pub = false).
Proof.
  assert (Hne : forall priv : PrivateKey.t S,
             PrivateKey.s priv <> szero ->
             isEmpty (fromGroup (gscale generator (PrivateKey.s priv)))
             = false).
  { intros priv Hd. apply Bool.not_true_is_false. intros He.
    apply fisZero_spec in He.
    exact (on_curve_x_nonzero _ (fromPrivateKey_on_curve priv Hd) He). }
  split; [reflexivity|]. split; [|split].
  - intros pk. unfold isEmpty. apply fisZero_spec.
  - intros priv Hd. eexists.
    split; [exact (toPublicKey_nonzero priv Hd) | now apply Hne].
  - intros priv pub Hp. destruct (toPublicKey_inv priv pub Hp) as [Hd ->].
    now apply Hne.
Qed.

(** C7 (amended): for a public key that satisfies its invariant (some y
    with y^2 = x^3 + 5 has [isOdd] as its low bit) decompression succeeds,
    and [verify] returns a boolean, false exactly when the candidate point
    misses r or the parity test, provided that neither the recomputed
    challenge nor the s of the signature is zero; when one of them is zero
    [verify] raises in [scale]. *)
Theorem verify_throws_only_at_zero (pub : PublicKey.t F) (msg : list F)
  (sig : Signature.t F S) :
  (exists y,
      fmul y y = curve_rhs (PublicKey.x pub) /\
      PublicKey.isOdd pub = lowbit y) ->
  exists point,
    toGroup pub = Ok point /\
    (challenge msg point (Signature.r sig) <> szero ->
     Signature.s sig <> szero ->
     exists b,
       verify sig pub msg = Ok b /\
       (b = false <->
        ~ (Group.x (candidate point msg sig) = Signature.r sig /\
           lowbit (Group.y (candidate point msg sig)) = false))) /\
    (challenge msg point (Signature.r sig) = szero \/
     Signature.s sig = szero ->
     verify sig pub msg = Throw GotIdentity).
Proof.
  intros [y [Hy _]]. destruct (fsqrt_total _ _ Hy) as [someY [Hr _]].
  pose proof (toGroup_root pub someY Hr) as Hp.
  eexists. split; [exact Hp|]. split.
  - intros He Hs. rewrite (verify_run sig pub msg _ Hp He Hs).
    eexists. split; [reflexivity|].
    set (c := candidate _ msg sig).
    destruct (fequals (Group.x c) (Signature.r sig)) eqn:Hx.
    + apply fequals_spec in Hx.
      destruct (lowbit (Group.y c)); simpl; split.
      * intros _ [_ Hl]. discriminate Hl.
      * reflexivity.
      * discriminate.
      * intros Hn. exfalso. apply Hn. now split.
    + simpl. split; [|reflexivity].
      intros _ [Hx' _]. apply fequals_spec in Hx'. congruence.
  - intros Hz. exact (verify_throw sig pub msg _ Hp Hz).
Qed.

(** C8: when x^3 + 5 has no square root, [toGroup] raises [InvalidPoint];
    and a point that [toGroup] returns is always on the curve. *)
Theorem toGroup_invalid_point (pk : PublicKey.t F) :
  (forall y, fmul y y <> curve_rhs (PublicKey.x pk)) ->
  toGroup pk = Throw InvalidPoint /\
  (forall (pk' : PublicKey.t F) (p : Group.t F),
      toGroup pk' = Ok p -> on_curve p).
Proof.
  intros Hno. split.
  - apply toGroup_no_root. now apply fsqrt_none.
  - intros pk' p Hp. exact (proj1 (toGroup_on_curve pk' p Hp)).
Qed.

(** C10 (amended): a run of [Signature.create] that draws the nonce k' and
    a run that draws -k' have the same outcome; when neither the scalar of
    the private key nor k' is zero that outcome is a signature, with the
    same r and the same s in both runs. *)
Theorem create_nonce_negation (priv : PrivateKey.t S) (msg : list F)
  (st1 st2 : Rng) :
  fst (srandom st2) = sneg (fst (srandom st1)) ->
  fst (create priv msg st1) = fst (create priv msg st2) /\
  (PrivateKey.s priv <> szero ->
   fst (srandom st1) <> szero ->
   exists sig,
     fst (create priv msg st1) = Ok sig /\
     fst (create priv msg st2) = Ok sig).
Proof.
  intros Hneg.
  assert (Hsame : fst (create priv msg st1) = fst (create priv msg st2)).
  { unfold create.
    destruct (rbind (fromPrivateKey priv) (fun pk => toGroup pk))
      as [publicKey|err]; [|reflexivity].
    destruct (srandom st1) as [k1 st1'], (srandom st2) as [k2 st2'].
    simpl in Hneg. subst k2.
    destruct (szero_dec k1) as [-> | Hk1].
    - replace (sneg szero) with szero by ring.
      now rewrite (Group_scale_zero generator gvalid_generator).
    - rewrite (Group_scale_nonzero generator k1 generator_on_curve Hk1).
      rewrite (Group_scale_nonzero generator (sneg k1) generator_on_curve
                 (sneg_nonzero k1 Hk1)).
      cbn [fst].
      destruct (nonce_opposite k1) as [Hx Hk]. cbv zeta in Hx, Hk.
      cbv zeta. rewrite Hx, Hk. reflexivity. }
  split; [exact Hsame|].
  intros Hd Hk. destruct (srandom st1) as [k1 st1'] eqn:Hdraw.
  rewrite <- Hsame.
  rewrite (create_run priv msg st1 st1' k1 Hd Hdraw Hk). cbn [fst].
  eexists. split; reflexivity.
Qed.

End Theory.

(** ** Further properties of the keys and of the protocol *)

Section Protocol.

Context {F S : Type}.
Context {FO : FieldOps F} {SO : ScalarOps S}.
Context {GO : GroupOps F S} {HO : HashOps F}.
Context {FL : FieldLaws F} {SL : ScalarLaws S} {GL : GroupLaws F S}.

Add Ring Fring' : (F_ring (F := F)).
Add Ring Sring' : (S_ring (S := S)).

Hint Resolve gvalid_gzero gvalid_generator gneg_valid gadd_valid
  gscale_valid gvalid_on_curve : curve.

(** *** Scalars and points *)

Lemma smul_nonzero (a b : S) : a <> szero -> b <> szero -> smul a b <> szero.
Proof.
  intros Ha Hb Hab.
  destruct (S_inverse a) as [Hz | [a' Ha']]; [contradiction|].
  apply Hb. transitivity (smul a' (smul a b)).
  - transitivity (smul (smul a a') b); [|ring]. rewrite Ha'. ring.
  - rewrite Hab. ring.
Qed.

Lemma gadd_cancel_neg (a b : Group.t F) :
  gvalid a -> gvalid b -> gadd a (gadd (gneg a) b) = b.
Proof.
  intros Ha Hb. rewrite gadd_assoc by eauto with curve.
  rewrite gadd_neg_r by assumption. now apply gadd_zero_l.
Qed.

(** Distinct scalars give distinct multiples of the generator. *)
Lemma gscale_generator_inj (a b : S) :
  gscale generator a = gscale generator b -> a = b.
Proof.
  intros Hab.
  assert (Hz : gscale generator (sadd a (sneg b)) = gzero).
  { rewrite gscale_add by eauto with curve.
    rewrite gscale_neg by eauto with curve. rewrite Hab.
    apply gadd_neg_r. eauto with curve. }
  apply gscale_generator_zero in Hz.
  transitivity (sadd (sadd a (sneg b)) b); [ring|]. rewrite Hz. ring.
Qed.

(** An x-coordinate belongs to at most one point with an even
    y-coordinate, the neutral element included. *)
Lemma even_point_unique (a b : Group.t F) :
  gvalid a -> gvalid b ->
  Group.x a = Group.x b ->
  lowbit (Group.y a) = false -> lowbit (Group.y b) = false ->
  a = b.
Proof.
  intros [Ha | Ha] [Hb | Hb] Hx Hpa Hpb.
  - congruence.
  - exfalso. apply (on_curve_x_nonzero b Hb). rewrite <- Hx, Ha. reflexivity.
  - exfalso. apply (on_curve_x_nonzero a Ha). rewrite Hx, Hb. reflexivity.
  - destruct a as [xa ya], b as [xb yb]. unfold on_curve in *. simpl in *.
    subst xb. rewrite <- Hb in Ha.
    destruct (square_roots ya yb Ha) as [-> | ->]; [reflexivity|].
    exfalso.
    rewrite lowbit_neg in Hpa
      by exact (on_curve_y_nonzero (Group.mk xa yb) Hb).
    rewrite Hpb in Hpa. discriminate Hpa.
Qed.

Lemma candidate_valid (point : Group.t F) (msg : list F)
  (sig : Signature.t F S) :
  on_curve point -> gvalid (candidate point msg sig).
Proof. intros Hp. unfold candidate. eauto 7 with curve. Qed.

(** Decompressing a derived public key gives the point of the private
    key. *)
Lemma toGroup_toPublicKey_inv (priv : PrivateKey.t S) (pub : PublicKey.t F)
  (point : Group.t F) :
  toPublicKey priv = Ok pub -> toGroup pub = Ok point ->
  PrivateKey.s priv <> szero /\ point = gscale generator (PrivateKey.s priv).
Proof.
  intros Hpub Hp. destruct (toPublicKey_inv priv pub Hpub) as [Hd ->].
  split; [assumption|].
  rewrite (toGroup_fromGroup _ (fromPrivateKey_on_curve priv Hd)) in Hp.
  congruence.
Qed.

(** *** Keys *)

(** X1: a private key with a non-zero scalar d has a public key; it
    satisfies the invariant of [PublicKey], and decompressing it gives
    Generator.d back. *)
Theorem public_key_decompresses (priv : PrivateKey.t S) :
  PrivateKey.s priv <> szero ->
  exists pub,
    toPublicKey priv = Ok pub /\
    toGroup pub = Ok (gscale generator (PrivateKey.s priv)) /\
    exists y,
      fmul y y = curve_rhs (PublicKey.x pub) /\
      PublicKey.isOdd pub = lowbit y.
Proof.
  intros Hd. pose proof (fromPrivateKey_on_curve priv Hd) as HP.
  eexists. split; [exact (toPublicKey_nonzero priv Hd)|].
  split; [now apply toGroup_fromGroup|].
  exists (Group.y (gscale generator (PrivateKey.s priv))).
  split; [exact HP | reflexivity].
Qed.

(** X2: two private keys that derive the same public key are the same
    key. *)
Theorem toPublicKey_injective (priv priv' : PrivateKey.t S)
  (pub : PublicKey.t F) :
  toPublicKey priv = Ok pub -> toPublicKey priv' = Ok pub -> priv = priv'.
Proof.
  intros Hp Hp'.
  destruct (toPublicKey_inv priv pub Hp) as [Hd Hpub].
  destruct (toPublicKey_inv priv' pub Hp') as [Hd' Hpub'].
  destruct priv as [d], priv' as [d']. simpl in *. f_equal.
  apply gscale_generator_inj.
  pose proof (toGroup_fromGroup _
                (fromPrivateKey_on_curve (PrivateKey.mk d) Hd)) as H1.
  pose proof (toGroup_fromGroup _
                (fromPrivateKey_on_curve (PrivateKey.mk d') Hd')) as H2.
  simpl in H1, H2. rewrite <- Hpub in H1. rewrite <- Hpub' in H2.
  congruence.
Qed.

(** X3: negating a non-zero private scalar keeps the x-coordinate of the
    public key and flips its parity bit. *)
Theorem toPublicKey_negated_key (priv : PrivateKey.t S) :
  PrivateKey.s priv <> szero ->
  exists pub,
    toPublicKey priv = Ok pub /\
    toPublicKey (PrivateKey.mk (sneg (PrivateKey.s priv))) =
    Ok (PublicKey.mk (PublicKey.x pub) (negb (PublicKey.isOdd pub))).
Proof.
  intros Hd. pose proof (fromPrivateKey_on_curve priv Hd) as HP.
  eexists. split; [exact (toPublicKey_nonzero priv Hd)|].
  rewrite (toPublicKey_nonzero (PrivateKey.mk (sneg (PrivateKey.s priv)))
             (sneg_nonzero _ Hd)).
  unfold fromGroup. simpl.
  rewrite gscale_neg by eauto with curve.
  rewrite gneg_coords by eauto with curve. simpl.
  now rewrite (lowbit_neg _ (on_curve_y_nonzero _ HP)).
Qed.

(** X4: decompressing a key with its parity bit flipped gives the opposite
    point. *)
Theorem toGroup_flipped_parity (x : F) (isOdd : bool) (p : Group.t F) :
  toGroup (PublicKey.mk x isOdd) = Ok p ->
  toGroup (PublicKey.mk x (negb isOdd)) = Ok (gneg p).
Proof.
  intros Hp. destruct (toGroup_on_curve _ _ Hp) as [Hc _].
  rewrite (gneg_coords p (gvalid_on_curve p Hc)).
  destruct (fsqrt (curve_rhs x)) as [someY|] eqn:Hr.
  - rewrite (toGroup_root (PublicKey.mk x isOdd) someY Hr) in Hp.
    rewrite (toGroup_root (PublicKey.mk x (negb isOdd)) someY Hr).
    injection Hp as <-. simpl. f_equal. f_equal.
    destruct isOdd, (lowbit someY); simpl; ring.
  - rewrite (toGroup_no_root (PublicKey.mk x isOdd) Hr) in Hp.
    discriminate Hp.
Qed.

(** *** Signing *)

(** X6: [create] raises in [scale] exactly when the scalar of the key or
    the drawn nonce is zero.  For the zero scalar it raises before the
    draw and leaves the random source as it was; for a zero nonce it
    raises after the draw; otherwise it returns a signature; in both
    latter cases exactly one draw is taken. *)
Theorem create_random_source (priv : PrivateKey.t S) (msg : list F)
  (st : Rng) :
  (PrivateKey.s priv = szero ->
   create priv msg st = (Throw GotIdentity, st)) /\
  (PrivateKey.s priv <> szero ->
   snd (create priv msg st) = snd (srandom st) /\
   (fst (srandom st) = szero ->
    fst (create priv msg st) = Throw GotIdentity) /\
   (fst (srandom st) <> szero ->
    exists sig, fst (create priv msg st) = Ok sig)).
Proof.
  split.
  - now apply create_zero_key.
  - intros Hd. destruct (srandom st) as [kPrime st'] eqn:Hdraw. cbn [fst snd].
    destruct (szero_dec kPrime) as [Hk | Hk].
    + subst kPrime. rewrite (create_zero_nonce priv msg st st' Hd Hdraw).
      split; [reflexivity|]. split; [reflexivity|]. now intros [].
    + rewrite (create_run priv msg st st' kPrime Hd Hdraw Hk). cbn [fst snd].
      split; [reflexivity|]. split; [contradiction|].
      intros _. eexists. reflexivity.
Qed.

(** X7: the r of a signature that [create] returns is never zero, so that
    (r, false) is never the empty key. *)
Theorem create_r_nonzero (priv : PrivateKey.t S) (msg : list F) (st : Rng)
  (sig : Signature.t F S) :
  fst (create priv msg st) = Ok sig ->
  Signature.r sig <> Field 0 /\
  isEmpty (PublicKey.mk (Signature.r sig) false) = false.
Proof.
  intros Hc.
  assert (Hr : Signature.r sig <> Field 0).
  { destruct (szero_dec (PrivateKey.s priv)) as [Hd | Hd].
    { rewrite (create_zero_key priv msg st Hd) in Hc. discriminate Hc. }
    destruct (srandom st) as [kPrime st'] eqn:Hdraw.
    destruct (szero_dec kPrime) as [Hk | Hk].
    { subst kPrime.
      rewrite (create_zero_nonce priv msg st st' Hd Hdraw) in Hc.
      discriminate Hc. }
    rewrite (create_run priv msg st st' kPrime Hd Hdraw Hk) in Hc.
    cbn [fst] in Hc. injection Hc as <-. cbn [Signature.r].
    apply on_curve_x_nonzero.
    now apply gscale_on_curve; [apply generator_on_curve|]. }
  split; [exact Hr|].
  apply Bool.not_true_is_false. intros He. apply fisZero_spec in He.
  exact (Hr He).
Qed.

(** *** Verification *)

(** X8: for a public key, a message and an r, at most one s is accepted:
    once [verify] accepts a signature, it accepts no signature with the
    same r and another s. *)
Theorem verify_rejects_other_s (sig sig' : Signature.t F S)
  (pub : PublicKey.t F) (msg : list F) :
  verify sig pub msg = Ok true ->
  Signature.r sig' = Signature.r sig ->
  Signature.s sig' <> Signature.s sig ->
  verify sig' pub msg <> Ok true.
Proof.
  intros Hv Hr Hs Hv'. apply Hs.
  destruct (verify_true_inv _ _ _ Hv) as [point [Hp [Hc [_ [_ [Hx Hy]]]]]].
  destruct (verify_true_inv _ _ _ Hv')
    as [point' [Hp' [_ [_ [_ [Hx' Hy']]]]]].
  rewrite Hp in Hp'. injection Hp' as <-.
  assert (Hsame : candidate point msg sig' = candidate point msg sig).
  { apply even_point_unique; try assumption.
    - now apply candidate_valid.
    - now apply candidate_valid.
    - congruence. }
  unfold candidate in Hsame. rewrite Hr in Hsame.
  apply gscale_generator_inj.
  rewrite <- (gadd_cancel_neg
                (gscale point (challenge msg point (Signature.r sig)))
                (gscale generator (Signature.s sig')))
    by eauto with curve.
  rewrite Hsame. apply gadd_cancel_neg; eauto with curve.
Qed.

(** X9: two accepted signatures of one private key that share their r
    (a nonce used twice) determine the private scalar d from the two
    challenges: s - s' = (e - e').d. *)
Theorem shared_nonce_reveals_key (priv : PrivateKey.t S)
  (pub : PublicKey.t F) (msg msg' : list F) (sig sig' : Signature.t F S) :
  toPublicKey priv = Ok pub ->
  verify sig pub msg = Ok true ->
  verify sig' pub msg' = Ok true ->
  Signature.r sig = Signature.r sig' ->
  let P := gscale generator (PrivateKey.s priv) in
  let e := challenge msg P (Signature.r sig) in
  let e' := challenge msg' P (Signature.r sig') in
  ssub (Signature.s sig) (Signature.s sig') =
  smul (ssub e e') (PrivateKey.s priv).
Proof.
  intros Hpub Hv Hv' Hr P e e'.
  destruct (verify_true_inv _ _ _ Hv) as [point [Hp [_ [_ [_ [Hx Hy]]]]]].
  destruct (verify_true_inv _ _ _ Hv')
    as [point' [Hp' [_ [_ [_ [Hx' Hy']]]]]].
  destruct (toGroup_toPublicKey_inv priv pub point Hpub Hp) as [Hd ->].
  destruct (toGroup_toPublicKey_inv priv pub point' Hpub Hp') as [_ ->].
  rewrite candidate_derived in Hx, Hy, Hx', Hy'.
  fold P in Hx, Hy, Hx', Hy'. fold e in Hx, Hy. fold e' in Hx', Hy'.
  set (d := PrivateKey.s priv) in *.
  assert (Hk : sadd (sneg (smul d e)) (Signature.s sig) =
               sadd (sneg (smul d e')) (Signature.s sig')).
  { apply gscale_generator_inj.
    apply even_point_unique; eauto with curve. congruence. }
  transitivity
    (sadd (ssub (sadd (sneg (smul d e)) (Signature.s sig))
                (sadd (sneg (smul d e')) (Signature.s sig')))
          (smul (ssub e e') d)); [unfold ssub; ring|].
  rewrite Hk. unfold ssub. ring.
Qed.

(** X10: every signature with a non-zero r that [verify] accepts for the
    public key of a private key is one that [create] returns: there is a
    non-zero nonce k' for which [create], drawing k', returns exactly this
    signature. *)
Theorem accepted_signature_is_created (priv : PrivateKey.t S)
  (pub : PublicKey.t F) (msg : list F) (sig : Signature.t F S) :
  toPublicKey priv = Ok pub ->
  verify sig pub msg = Ok true ->
  Signature.r sig <> Field 0 ->
  exists kPrime,
    kPrime <> szero /\
    forall st st',
      srandom st = (kPrime, st') -> create priv msg st = (Ok sig, st').
Proof.
  intros Hpub Hv Hr.
  destruct (verify_true_inv _ _ _ Hv) as [point [Hp [_ [_ [_ [Hx Hy]]]]]].
  destruct (toGroup_toPublicKey_inv priv pub point Hpub Hp) as [Hd ->].
  rewrite candidate_derived in Hx, Hy.
  set (d := PrivateKey.s priv) in *.
  set (e := challenge msg (gscale generator d) (Signature.r sig)) in *.
  set (k := sadd (sneg (smul d e)) (Signature.s sig)) in *.
  assert (Hk : k <> szero).
  { intros Hk. apply Hr. rewrite <- Hx, Hk.
    now rewrite (gscale_zero generator gvalid_generator). }
  exists k. split; [exact Hk|].
  intros st st' Hdraw.
  rewrite (create_run priv msg st st' k Hd Hdraw Hk). cbv zeta.
  rewrite Hy, Hx. fold d. fold e.
  replace (sadd (smul e d) k) with (Signature.s sig) by (subst k; ring).
  now destruct sig.
Qed.

(** X13: [verify] also accepts, for the public key of d, the signature
    (0, e.d) with e the challenge for r = 0, when e is not zero: its
    candidate is the neutral element, which [add] returns as (0, 0).
    [create] never returns it. *)
Theorem neutral_candidate_accepted (priv : PrivateKey.t S) (msg : list F) :
  PrivateKey.s priv <> szero ->
  let d := PrivateKey.s priv in
  let e := challenge msg (gscale generator d) (Field 0) in
  e <> szero ->
  exists pub,
    toPublicKey priv = Ok pub /\
    verify (Signature.mk (Field 0) (smul e d)) pub msg = Ok true /\
    forall st, fst (create priv msg st) <> Ok (Signature.mk (Field 0) (smul e d)).
Proof.
  intros Hd d e He.
  exists (fromGroup (gscale generator d)).
  split; [exact (toPublicKey_nonzero priv Hd)|]. split.
  - assert (Hp : toGroup (fromGroup (gscale generator d)) =
                 Ok (gscale generator d))
      by exact (toGroup_fromGroup _ (fromPrivateKey_on_curve priv Hd)).
    rewrite (verify_run (Signature.mk (Field 0) (smul e d)) _ msg _ Hp He
               (smul_nonzero e d He Hd)).
    rewrite candidate_derived. cbn [Signature.r Signature.s]. fold e.
    replace (sadd (sneg (smul d e)) (smul e d)) with szero by ring.
    rewrite (gscale_zero generator gvalid_generator). unfold gzero. simpl.
    rewrite lowbit_zero.
    now rewrite (proj2 (fequals_spec (Field 0) (Field 0)) eq_refl).
  - intros st Hc.
    destruct (srandom st) as [kPrime st'] eqn:Hdraw.
    destruct (szero_dec kPrime) as [Hk | Hk].
    + subst kPrime.
      rewrite (create_zero_nonce priv msg st st' Hd Hdraw) in Hc.
      discriminate Hc.
    + rewrite (create_run priv msg st st' kPrime Hd Hdraw Hk) in Hc.
      cbn [fst] in Hc. injection Hc as Hx _.
      apply (on_curve_x_nonzero (gscale generator kPrime)); [|exact Hx].
      now apply gscale_on_curve; [apply generator_on_curve|].
Qed.

(** X11: the normalisation of the nonce is needed: when the y-coordinate
    of Generator.k' is odd, the signature (r, e.d + k') built from the
    nonce as drawn is rejected, with the x test passed and the parity test
    failed, when neither e nor e.d + k' is zero. *)
Theorem raw_odd_nonce_rejected (priv : PrivateKey.t S) (msg : list F)
  (kPrime : S) :
  PrivateKey.s priv <> szero ->
  lowbit (Group.y (gscale generator kPrime)) = true ->
  let d := PrivateKey.s priv in
  let r := Group.x (gscale generator kPrime) in
  let e := challenge msg (gscale generator d) r in
  let sig := Signature.mk r (sadd (smul e d) kPrime) in
  e <> szero ->
  sadd (smul e d) kPrime <> szero ->
  exists pub,
    toPublicKey priv = Ok pub /\
    verify sig pub msg = Ok false /\
    Group.x (candidate (gscale generator d) msg sig) = r /\
    lowbit (Group.y (candidate (gscale generator d) msg sig)) = true.
Proof.
  intros Hd Hodd d r e sig He Hs.
  exists (fromGroup (gscale generator d)).
  split; [exact (toPublicKey_nonzero priv Hd)|].
  assert (Hp : toGroup (fromGroup (gscale generator d)) =
               Ok (gscale generator d))
    by exact (toGroup_fromGroup _ (fromPrivateKey_on_curve priv Hd)).
  rewrite (verify_run sig _ msg _ Hp He Hs).
  rewrite candidate_derived. unfold sig. cbn [Signature.r Signature.s].
  fold r. fold e.
  replace (sadd (sneg (smul d e)) (sadd (smul e d) kPrime)) with kPrime
    by ring.
  rewrite Hodd. simpl. rewrite Bool.andb_false_r.
  repeat split.
Qed.

(** X12: a key drawn by [PrivateKey.random] has the first scalar of the
    random source; when that scalar and the next one, the nonce, are not
    zero, and neither the challenge nor s is, signing with the rest of the
    source gives a signature that the public key of the key verifies. *)
Theorem random_key_signs (msg : list F) (st st1 st2 : Rng)
  (priv : PrivateKey.t S) (kPrime : S) :
  random st = (priv, st1) ->
  srandom st1 = (kPrime, st2) ->
  PrivateKey.s priv <> szero ->
  kPrime <> szero ->
  let d := PrivateKey.s priv in
  let R := gscale generator kPrime in
  let k := if lowbit (Group.y R) then sneg kPrime else kPrime in
  let e := challenge msg (gscale generator d) (Group.x R) in
  e <> szero ->
  sadd (smul e d) k <> szero ->
  srandom st = (d, st1) /\
  exists sig pub,
    create priv msg st1 = (Ok sig, st2) /\
    toPublicKey priv = Ok pub /\
    verify sig pub msg = Ok true.
Proof.
  intros Hrand Hdraw Hd Hk d R k e He Hs. unfold random in Hrand.
  destruct (srandom st) as [d0 st0] eqn:Hdraw0.
  injection Hrand as <- <-. split; [reflexivity|].
  exists (Signature.mk (Group.x R) (sadd (smul e d) k)).
  exists (fromGroup (gscale generator d)).
  split; [exact (create_run (PrivateKey.mk d0) msg st0 st2 kPrime Hd Hdraw Hk)|].
  split; [exact (toPublicKey_nonzero (PrivateKey.mk d0) Hd)|].
  exact (created_signature_verifies (PrivateKey.mk d0) msg kPrime Hd He Hs).
Qed.

End Protocol.

(** ** The model satisfies the laws *)

Module Curve7Laws.

Import Curve7.

Ltac cases7 :=
  intros;
  repeat match goal with
         | a : Z7 |- _ => destruct a
         end.

#[global] Instance field_laws : FieldLaws Z7.
Proof.
  constructor.
  - constructor; cases7; reflexivity.
  - intros a b. destruct a, b; vm_compute; intros H;
      first [discriminate H | now left | now right].
  - intros a b. destruct a, b; vm_compute; split; intros H;
      first [discriminate H | reflexivity].
  - intros a. destruct a; vm_compute; split; intros H;
      first [discriminate H | reflexivity].
  - intros a root. destruct a; vm_compute; intros [= <-]; reflexivity.
  - intros a y <-. destruct y; discriminate.
  - reflexivity.
  - intros a Ha. destruct a; try reflexivity. now contradiction Ha.
  - intros y. destruct y; discriminate.
Qed.

#[global] Instance scalar_laws : ScalarLaws Z7.
Proof.
  constructor.
  - constructor; cases7; reflexivity.
  - intros a. destruct a; [now left | right ..].
    + now exists z1.
    + now exists z4.
    + now exists z5.
    + now exists z2.
    + now exists z3.
    + now exists z6.
  - discriminate.
Qed.

Lemma gvalid_points (g : Group.t Z7) : gvalid g -> In g points.
Proof.
  destruct g as [x y]. destruct x, y; intros [H | H];
    vm_compute in H; try discriminate H;
    simpl; repeat first [left; reflexivity | right].
Qed.

Ltac points_cases H :=
  apply gvalid_points in H; simpl in H;
  repeat (destruct H as [<- | H]); [.. | contradiction H].

Ltac decide_valid :=
  first [left; reflexivity | right; reflexivity].

#[global] Instance group_laws : GroupLaws Z7 Z7.
Proof.
  constructor.
  - reflexivity.
  - intros a b Ha Hb. points_cases Ha; points_cases Hb; decide_valid.
  - intros a k Ha. points_cases Ha; destruct k; decide_valid.
  - intros a _. reflexivity.
  - intros a b c Ha Hb Hc.
    points_cases Ha; points_cases Hb; points_cases Hc; reflexivity.
  - intros a b Ha Hb. points_cases Ha; points_cases Hb; reflexivity.
  - intros a Ha. points_cases Ha; reflexivity.
  - intros a Ha. points_cases Ha; reflexivity.
  - intros a Ha. points_cases Ha; reflexivity.
  - intros a j k Ha. points_cases Ha; destruct j, k; reflexivity.
  - intros a j k Ha. points_cases Ha; destruct j, k; reflexivity.
Qed.

End Curve7Laws.

(** ** The claims on the model

    Private key 3 has the point (6, 5) and the public key (6, true); with
    the message [1; 2; 4] and the nonce 2 the challenge is 6 and the
    signature is (5, 6). *)

Import Curve7.

Ltac differ := let H := fresh in intros H; vm_compute in H; discriminate H.

Lemma sign_verify_correct_witness :
  exists sig pub,
    create (PrivateKey.mk z3) [z1; z2; z4] (seed [z2]) = (Ok sig, seed []) /\
    toPublicKey (PrivateKey.mk z3) = Ok pub /\
    verify sig pub [z1; z2; z4] = Ok true.
Proof.
  refine (sign_verify_correct (PrivateKey.mk z3) [z1; z2; z4] (seed [z2])
            (seed []) z2 _ _ _ _ _); try differ.
  reflexivity.
Defined.

(** C1, as stated, fails in four ways: with the zero scalar and with the
    nonce 0, [create] raises; with the message [1; 2; 3] and the nonce 2 the
    challenge is 0, and with the nonce 3 the s of the signature is 0, and
    [verify] raises. *)
Lemma sign_verify_fails :
  (~ exists sig pub,
       fst (create (PrivateKey.mk z0) [z1; z2; z3] (seed [z2])) = Ok sig /\
       toPublicKey (PrivateKey.mk z0) = Ok pub /\
       verify sig pub [z1; z2; z3] = Ok true) /\
  (~ exists sig pub,
       fst (create (PrivateKey.mk z3) [z1; z2; z3] (seed [z0])) = Ok sig /\
       toPublicKey (PrivateKey.mk z3) = Ok pub /\
       verify sig pub [z1; z2; z3] = Ok true) /\
  (~ exists sig pub,
       fst (create (PrivateKey.mk z3) [z1; z2; z3] (seed [z2])) = Ok sig /\
       toPublicKey (PrivateKey.mk z3) = Ok pub /\
       verify sig pub [z1; z2; z3] = Ok true) /\
  (~ exists sig pub,
       fst (create (PrivateKey.mk z3) [z1; z2; z3] (seed [z3])) = Ok sig /\
       toPublicKey (PrivateKey.mk z3) = Ok pub /\
       verify sig pub [z1; z2; z3] = Ok true).
Proof.
  repeat split; intros [sig [pub [Hc [Hp Hv]]]];
    vm_compute in Hc; try discriminate Hc;
    vm_compute in Hp; injection Hc as <-; injection Hp as <-;
    vm_compute in Hv; discriminate Hv.
Qed.

Lemma toGroup_selects_root_witness :
  exists someY,
    sqrt (add (mul (mul z6 z6) z6) z5) = Some someY /\
    mul someY someY = add (mul (mul z6 z6) z6) z5 /\
    toGroup (from z6 true) =
    Ok (Group.mk z6
          (if Bool.eqb true (lowbit someY) then someY else neg someY)).
Proof.
  refine (toGroup_selects_root z6 true _). exists z2. reflexivity.
Defined.

Lemma compress_decompress_inverse_witness :
  toGroup (fromGroup (Group.mk z6 z5)) = Ok (Group.mk z6 z5) /\
  exists p,
    toGroup (from z3 true) = Ok p /\ fromGroup p = from z3 true.
Proof.
  split.
  - apply (proj1 compress_decompress_inverse). reflexivity.
  - apply (proj2 compress_decompress_inverse). exists z2. reflexivity.
Defined.

Lemma verify_accepts_iff_witness :
  verify (Signature.mk z5 z6) (PublicKey.mk z6 true) [z1; z2; z4] = Ok true.
Proof.
  apply (proj1 (verify_accepts_iff (PublicKey.mk z6 true) [z1; z2; z4]
                  (Signature.mk z5 z6))).
  exists (Group.mk z6 z5). split; [reflexivity|].
  split; [differ|]. split; [differ|]. split; reflexivity.
Defined.

(** C4, as stated, fails when the challenge is 0: for the key (6, true),
    the message [1; 2; 3] and the signature (5, 2) the candidate
    (-e).point + s.Generator passes both tests, and [verify] raises instead
    of returning true. *)
Lemma verify_zero_challenge_raises :
  toGroup (PublicKey.mk z6 true) = Ok (Group.mk z6 z5) /\
  (let e := challenge [z1; z2; z3] (Group.mk z6 z5) z5 in
   let cand := gadd (gscale (Group.mk z6 z5) (sneg e)) (gscale generator z2) in
   Group.x cand = z5 /\ lowbit (Group.y cand) = false) /\
  verify (Signature.mk z5 z2) (PublicKey.mk z6 true) [z1; z2; z3]
  = Throw GotIdentity /\
  ~ (verify (Signature.mk z5 z2) (PublicKey.mk z6 true) [z1; z2; z3]
     = Ok true <->
     (let e := challenge [z1; z2; z3] (Group.mk z6 z5) z5 in
      let cand :=
        gadd (gscale (Group.mk z6 z5) (sneg e)) (gscale generator z2) in
      Group.x cand = z5 /\ lowbit (Group.y cand) = false)).
Proof.
  split; [reflexivity|]. split; [split; reflexivity|].
  split; [reflexivity|].
  intros [_ Hback].
  assert (Hv : verify (Signature.mk z5 z2) (PublicKey.mk z6 true)
                 [z1; z2; z3] = Ok true)
    by (apply Hback; split; reflexivity).
  vm_compute in Hv. discriminate Hv.
Qed.

Lemma create_signature_regular_witness :
  create (PrivateKey.mk z3) [z1; z2; z4] (seed [z2]) =
  (Ok (Signature.mk z5 z6), seed []).
Proof.
  refine (create_signature_regular (PrivateKey.mk z3) [z1; z2; z4]
            (seed [z2]) (seed []) z2 _ _ _); try differ.
  reflexivity.
Defined.

(** C5, as stated, fails for the zero scalar and for the nonce 0: [create]
    raises and returns no signature. *)
Lemma create_raises_at_zero :
  create (PrivateKey.mk z0) [z1; z2; z4] (seed [z2])
  = (Throw GotIdentity, seed [z2]) /\
  create (PrivateKey.mk z3) [z1; z2; z4] (seed [z0])
  = (Throw GotIdentity, seed []) /\
  (~ exists sig st',
       create (PrivateKey.mk z0) [z1; z2; z4] (seed [z2]) = (Ok sig, st')) /\
  (~ exists sig st',
       create (PrivateKey.mk z3) [z1; z2; z4] (seed [z0]) = (Ok sig, st')).
Proof.
  split; [reflexivity|]. split; [reflexivity|].
  split; intros [sig [st' Hc]]; vm_compute in Hc; discriminate Hc.
Qed.

Lemma empty_key_sentinel_witness :
  z3 <> z0 /\
  exists pub,
    toPublicKey (PrivateKey.mk z3) = Ok pub /\ isEmpty pub = false.
Proof.
  split; [discriminate|].
  apply (proj1 (proj2 (proj2 empty_key_sentinel)) (PrivateKey.mk z3)).
  discriminate.
Defined.

(** C6, as stated, fails for the zero scalar: [toPublicKey] raises, so
    there is no key for [isEmpty] to return false on. *)
Lemma zero_key_has_no_public_key :
  toPublicKey (PrivateKey.mk z0) = Throw GotIdentity /\
  ~ exists pub,
      toPublicKey (PrivateKey.mk z0) = Ok pub /\ isEmpty pub = false.
Proof.
  split; [reflexivity|]. intros [pub [Hp _]].
  vm_compute in Hp. discriminate Hp.
Qed.

Lemma verify_throws_only_at_zero_witness :
  exists point,
    toGroup (PublicKey.mk z6 true) = Ok point /\
    (challenge [z4] point z1 <> z0 ->
     z1 <> z0 ->
     exists b,
       verify (Signature.mk z1 z1) (PublicKey.mk z6 true) [z4] = Ok b /\
       (b = false <->
        ~ (Group.x (candidate point [z4] (Signature.mk z1 z1)) = z1 /\
           lowbit (Group.y (candidate point [z4] (Signature.mk z1 z1)))
           = false))) /\
    (challenge [z4] point z1 = z0 \/ z1 = z0 ->
     verify (Signature.mk z1 z1) (PublicKey.mk z6 true) [z4]
     = Throw GotIdentity).
Proof.
  refine (verify_throws_only_at_zero (PublicKey.mk z6 true) [z4]
            (Signature.mk z1 z1) _).
  exists z5. split; reflexivity.
Defined.

(** C7, as stated, fails for a signature with s = 0: the key (6, true)
    satisfies the invariant, and [verify] raises on the signature (1, 0). *)
Lemma verify_raises_at_zero_s :
  (exists y, mul y y = curve_rhs z6 /\ true = lowbit y) /\
  verify (Signature.mk z1 z0) (PublicKey.mk z6 true) [z4]
  = Throw GotIdentity /\
  ~ exists b, verify (Signature.mk z1 z0) (PublicKey.mk z6 true) [z4] = Ok b.
Proof.
  split; [exists z5; split; reflexivity|]. split; [reflexivity|].
  intros [b Hv]. vm_compute in Hv. discriminate Hv.
Qed.

Lemma toGroup_invalid_point_witness :
  toGroup (PublicKey.mk z0 false) = Throw InvalidPoint.
Proof.
  refine (proj1 (toGroup_invalid_point (PublicKey.mk z0 false) _)).
  intros y. destruct y; discriminate.
Defined.

Lemma create_nonce_negation_witness :
  exists sig,
    fst (create (PrivateKey.mk z3) [z1; z2; z4] (seed [z2])) = Ok sig /\
    fst (create (PrivateKey.mk z3) [z1; z2; z4] (seed [z5])) = Ok sig.
Proof.
  refine (proj2 (create_nonce_negation (PrivateKey.mk z3) [z1; z2; z4]
                   (seed [z2]) (seed [z5]) eq_refl) _ _); differ.
Defined.

(** C10, as stated, fails for the nonce 0 and for the zero scalar: both
    runs raise and there is no signature. *)
Lemma create_nonce_negation_fails :
  (~ exists sig,
       fst (create (PrivateKey.mk z3) [z1; z2; z4] (seed [z0])) = Ok sig /\
       fst (create (PrivateKey.mk z3) [z1; z2; z4] (seed [neg z0])) = Ok sig)
  /\
  (~ exists sig,
       fst (create (PrivateKey.mk z0) [z1; z2; z4] (seed [z2])) = Ok sig /\
       fst (create (PrivateKey.mk z0) [z1; z2; z4] (seed [neg z2])) = Ok sig).
Proof.
  split; intros [sig [Hc _]]; vm_compute in Hc; discriminate Hc.
Qed.

(** ** The further properties on the model *)

Lemma public_key_decompresses_witness :
  exists pub,
    toPublicKey (PrivateKey.mk z3) = Ok pub /\
    toGroup pub = Ok (Group.mk z6 z5) /\
    exists y,
      mul y y = curve_rhs (PublicKey.x pub) /\
      PublicKey.isOdd pub = lowbit y.
Proof.
  refine (public_key_decompresses (PrivateKey.mk z3) _). differ.
Defined.

Lemma toPublicKey_injective_witness :
  PrivateKey.mk z3 = PrivateKey.mk (add z1 z2).
Proof.
  refine (toPublicKey_injective (PrivateKey.mk z3) (PrivateKey.mk (add z1 z2))
            (PublicKey.mk z6 true) _ _); reflexivity.
Defined.

Lemma toPublicKey_negated_key_witness :
  exists pub,
    toPublicKey (PrivateKey.mk z3) = Ok pub /\
    toPublicKey (PrivateKey.mk (neg z3)) =
    Ok (PublicKey.mk (PublicKey.x pub) (negb (PublicKey.isOdd pub))).
Proof.
  refine (toPublicKey_negated_key (PrivateKey.mk z3) _). differ.
Defined.

Lemma toGroup_flipped_parity_witness :
  toGroup (PublicKey.mk z6 false) = Ok (gneg (Group.mk z6 z5)).
Proof.
  refine (toGroup_flipped_parity z6 true (Group.mk z6 z5) _). reflexivity.
Defined.

Lemma create_random_source_witness :
  snd (create (PrivateKey.mk z3) [z1; z2; z4] (seed [z2; z4])) = seed [z4] /\
  (z2 = z0 ->
   fst (create (PrivateKey.mk z3) [z1; z2; z4] (seed [z2; z4]))
   = Throw GotIdentity) /\
  (z2 <> z0 ->
   exists sig,
     fst (create (PrivateKey.mk z3) [z1; z2; z4] (seed [z2; z4])) = Ok sig).
Proof.
  refine (proj2 (create_random_source (PrivateKey.mk z3) [z1; z2; z4]
                   (seed [z2; z4])) _).
  differ.
Defined.

Lemma create_r_nonzero_witness :
  fst (create (PrivateKey.mk z3) [z1; z2; z4] (seed [z2]))
  = Ok (Signature.mk z5 z6) /\
  z5 <> z0 /\ isEmpty (PublicKey.mk z5 false) = false.
Proof.
  split; [reflexivity|].
  refine (create_r_nonzero (PrivateKey.mk z3) [z1; z2; z4] (seed [z2])
            (Signature.mk z5 z6) _).
  reflexivity.
Defined.

Lemma verify_rejects_other_s_witness :
  verify (Signature.mk z5 z6) (PublicKey.mk z6 true) [z1; z2; z4] = Ok true /\
  verify (Signature.mk z5 z1) (PublicKey.mk z6 true) [z1; z2; z4] <> Ok true.
Proof.
  split; [reflexivity|].
  refine (verify_rejects_other_s (Signature.mk z5 z6) (Signature.mk z5 z1)
            (PublicKey.mk z6 true) [z1; z2; z4] _ _ _);
    first [reflexivity | differ].
Defined.

Lemma shared_nonce_reveals_key_witness :
  verify (Signature.mk z5 z6) (PublicKey.mk z6 true) [z1; z2; z4] = Ok true /\
  verify (Signature.mk z5 z3) (PublicKey.mk z6 true) [z4] = Ok true /\
  ssub z6 z3 = smul (ssub z6 z5) z3.
Proof.
  split; [reflexivity|]. split; [reflexivity|].
  refine (shared_nonce_reveals_key (PrivateKey.mk z3) (PublicKey.mk z6 true)
            [z1; z2; z4] [z4] (Signature.mk z5 z6) (Signature.mk z5 z3)
            _ _ _ _);
    reflexivity.
Defined.

Lemma accepted_signature_is_created_witness :
  exists kPrime,
    kPrime <> z0 /\
    forall st st',
      srandom st = (kPrime, st') ->
      create (PrivateKey.mk z3) [z1; z2; z4] st
      = (Ok (Signature.mk z5 z6), st').
Proof.
  refine (accepted_signature_is_created (PrivateKey.mk z3)
            (PublicKey.mk z6 true) [z1; z2; z4] (Signature.mk z5 z6) _ _ _);
    first [reflexivity | differ].
Defined.

Lemma neutral_candidate_accepted_witness :
  exists pub,
    toPublicKey (PrivateKey.mk z3) = Ok pub /\
    verify (Signature.mk z0 z2) pub [z1] = Ok true /\
    forall st,
      fst (create (PrivateKey.mk z3) [z1] st) <> Ok (Signature.mk z0 z2).
Proof.
  refine (neutral_candidate_accepted (PrivateKey.mk z3) [z1] _ _); differ.
Defined.

(** Private key 3, message [1; 2; 4] and the nonce 5, whose point (5, 5)
    has an odd y-coordinate: the signature built without the normalisation
    is (5, 2). *)
Lemma raw_odd_nonce_rejected_witness :
  Signature.mk (Group.x (gscale generator z5))
    (sadd (smul (challenge [z1; z2; z4] (gscale generator z3)
                   (Group.x (gscale generator z5))) z3) z5)
  = Signature.mk z5 z2 /\
  exists pub,
    toPublicKey (PrivateKey.mk z3) = Ok pub /\
    verify (Signature.mk z5 z2) pub [z1; z2; z4] = Ok false /\
    Group.x (candidate (gscale generator z3) [z1; z2; z4]
               (Signature.mk z5 z2)) = z5 /\
    lowbit (Group.y (candidate (gscale generator z3) [z1; z2; z4]
                       (Signature.mk z5 z2))) = true.
Proof.
  split; [reflexivity|].
  refine (raw_odd_nonce_rejected (PrivateKey.mk z3) [z1; z2; z4] z5
            _ _ _ _);
    first [reflexivity | differ].
Defined.

Lemma random_key_signs_witness :
  srandom (seed [z3; z2]) = (z3, seed [z2]) /\
  exists sig pub,
    create (PrivateKey.mk z3) [z1; z2; z4] (seed [z2]) = (Ok sig, seed []) /\
    toPublicKey (PrivateKey.mk z3) = Ok pub /\
    verify sig pub [z1; z2; z4] = Ok true.
Proof.
  refine (random_key_signs [z1; z2; z4] (seed [z3; z2]) (seed [z2])
            (seed []) (PrivateKey.mk z3) z2 _ _ _ _ _ _);
    first [reflexivity | differ].
Defined.
